(** * clip_peaks.py: the CLIP-Seq peak caller, embedded in Rocq

    The statistical engine of [clip_peaks.py] is translated function by
    function.  Conventions of the embedding:

    - Python integers (genomic coordinates, counts, list indexes) are [Z];
      an index that the code only ever produces by counting up from zero
      is a [nat].
    - Read midpoints are Python floats of the form [n] or [n + 0.5]; they
      are exactly representable and are modelled as rationals [Q].
    - Expression rates, expected counts and p-values are Python floats
      whose computation involves [exp]; they are modelled as real numbers
      [R] (exact arithmetic, no rounding, no NaN).
    - A Python exception (IndexError, UnboundLocalError) is [None].
    - [clip_in], the open BAM file, is passed around by the code but only
      read in [map_midpoints]; the functions below take the midpoints. *)

From Stdlib Require Import ZArith QArith Qround Reals Lra Lia.
From Stdlib Require String.
Import String.StringSyntax.
Delimit Scope string_scope with string.
From Stdlib Require Import List Bool Sorted Permutation.
Import ListNotations.
Local Open Scope Z_scope.

(** ** Python built-ins used by the code *)

Module Py.

(** [l[i]]: a negative index counts from the end of the list, and an
    index outside [-len(l) .. len(l)-1] raises IndexError. *)
Definition index {A : Type} (l : list A) (i : Z) : option A :=
  let n := Z.of_nat (length l) in
  if (0 <=? i) && (i <? n) then nth_error l (Z.to_nat i)
  else if (- n <=? i) && (i <? 0) then nth_error l (Z.to_nat (n + i))
  else None.

(** [int(x)] on a float: truncation toward zero. *)
Definition int (x : Q) : Z := Z.quot (Qnum x) (Zpos (Qden x)).

(** [range(a, b)]. *)
Definition range (a b : Z) : list Z :=
  map (fun i => a + Z.of_nat i) (seq 0 (Z.to_nat (b - a))).

(** [x < y] on floats. *)
Definition Qltb (x y : Q) : bool := negb (Qle_bool y x).

(** A [while i < len(a) and cond(i): i += 1] loop.  The index can move
    at most [len(a)] times, which is the fuel the callers give. *)
Fixpoint advance (fuel : nat) (cond : nat -> bool) (i : nat) : nat :=
  match fuel with
  | O => i
  | S fuel' => if cond i then advance fuel' cond (S i) else i
  end.

(** The loop of [bisect.bisect_left] and [bisect.bisect_right]:
    [while lo < hi: mid = (lo+hi)//2; if go_right(a[mid]): lo = mid+1
    else: hi = mid].  [hi - lo] shrinks at every turn, so [len(a)]
    turns are enough. *)
Fixpoint bisect_loop {A : Type} (fuel : nat) (go_right : A -> bool)
    (a : list A) (d : A) (lo hi : nat) : nat :=
  match fuel with
  | O => lo
  | S fuel' =>
      if (lo <? hi)%nat then
        let mid := ((lo + hi) / 2)%nat in
        if go_right (nth mid a d)
        then bisect_loop fuel' go_right a d (S mid) hi
        else bisect_loop fuel' go_right a d lo mid
      else lo
  end.

(** [bisect_left(a, x)]: the test is [a[mid] < x]. *)
Definition bisect_left {A : Type} (lt_x : A -> bool) (d : A) (a : list A) : nat :=
  bisect_loop (length a) lt_x a d 0 (length a).

(** [bisect_right(a, x)]: the test is [x < a[mid]], going left when it
    holds. *)
Definition bisect_right {A : Type} (x_lt : A -> bool) (d : A) (a : list A) : nat :=
  bisect_loop (length a) (fun y => negb (x_lt y)) a d 0 (length a).

End Py.

(** ** Exon and Gene *)

Record Exon := mkExon { start : Z; end_ : Z }.

(** [Exon.__cmp__] orders exons by [start] alone. *)
Definition Exon_cmp (a x : Exon) : comparison :=
  if start a <? start x then Lt
  else if start a >? start x then Gt
  else Eq.

Record Gene := mkGene {
  chrom : String.string;
  strand : String.string;
  kv : list (String.string * String.string);
  exons : list Exon;
  fpkm_exon : option R;
  fpkm_pre : option R
}.

(** [Gene.__init__]. *)
Definition Gene_init (chrom strand : String.string)
    (kv : list (String.string * String.string)) : Gene :=
  mkGene chrom strand kv [] None None.

(** [list.sort()] is a stable sort driven by [__cmp__]; its result is the
    one stable arrangement of the list, computed here by insertion. *)
Fixpoint sort_insert (x : Exon) (l : list Exon) : list Exon :=
  match l with
  | [] => [x]
  | y :: l' =>
      match Exon_cmp x y with
      | Gt => y :: sort_insert x l'
      | _ => x :: y :: l'
      end
  end.

Fixpoint sort (l : list Exon) : list Exon :=
  match l with
  | [] => []
  | x :: l' => sort_insert x (sort l')
  end.

(** [Gene.add_exon]. *)
Definition add_exon (self : Gene) (start0 end0 : Z) : Gene :=
  let appended := exons self ++ [mkExon start0 end0] in
  let resort :=
    (1 <? Z.of_nat (length appended)) &&
    match Py.index appended (-2) with
    | Some prev => end_ prev >? start0
    | None => false
    end in
  mkGene (chrom self) (strand self) (kv self)
         (if resort then sort appended else appended)
         (fpkm_exon self) (fpkm_pre self).

(** The genomic span of a transcript: [tx.exons[0].start] and
    [tx.exons[-1].end]. *)
Definition span_start (tx : Gene) : option Z := option_map start (Py.index (exons tx) 0).
Definition span_end (tx : Gene) : option Z := option_map end_ (Py.index (exons tx) (-1)).

(** ** cigar_midpoint *)

Record AlignedRead := mkRead {
  qlen : Z;
  pos : Z;
  cigar : list (Z * Z)
}.

Definition is_match (operation : Z) : bool :=
  (operation =? 0) || (operation =? 7) || (operation =? 8).

Definition is_insertion (operation : Z) : bool :=
  (operation =? 1) || (operation =? 3).

(** The [for] loop of [cigar_midpoint].  [Some m] is the [break] with
    [midpoint = m]; [None] is the loop running out with [midpoint] never
    assigned, where [return midpoint] raises UnboundLocalError. *)
Fixpoint cigar_walk (read_half : Q) (segments : list (Z * Z))
    (read_walked genome_pos : Z) : option Q :=
  match segments with
  | [] => None
  | (operation, length) :: rest =>
      if is_match operation then
        if Qle_bool read_half (inject_Z (read_walked + length))
        then Some (inject_Z genome_pos + (read_half - inject_Z read_walked))%Q
        else cigar_walk read_half rest (read_walked + length) (genome_pos + length)
      else if is_insertion operation then
        cigar_walk read_half rest read_walked (genome_pos + length)
      else if operation =? 2 then
        cigar_walk read_half rest (read_walked + length) genome_pos
      else
        cigar_walk read_half rest read_walked genome_pos
  end.

Definition cigar_midpoint (aligned_read : AlignedRead) : option Q :=
  let read_half := (inject_Z (qlen aligned_read) / 2)%Q in
  cigar_walk read_half (cigar aligned_read) 0 (pos aligned_read).

(** ** transcriptome_size *)

(** [transcripts] is the dict from transcript id to [Gene], given by its
    items in iteration order. *)
Definition transcriptome_size (transcripts : list (String.string * Gene)) (window_size : Z)
    : option Z :=
  fold_left
    (fun txome_size item =>
       match txome_size, span_end (snd item), span_start (snd item) with
       | Some size, Some last_end, Some first_start =>
           Some (size + (last_end - first_start - window_size + 1))
       | _, _, _ => None
       end)
    transcripts (Some 0).

(** ** map_splice_junctions *)

(** Every index below is in range by the guard [len(tx.exons) > 1] and
    the bounds of the [range]; the default exon is never read. *)
Definition map_splice_junctions (tx : Gene) : list Z :=
  let n := length (exons tx) in
  let ex i := nth i (exons tx) (mkExon 0 0) in
  if (1 <? n)%nat then
    [end_ (ex 0%nat) + 1]
      ++ flat_map (fun i => [start (ex i); end_ (ex i) + 1]) (seq 1 (n - 2))
      ++ [start (ex (n - 1)%nat)]
  else [].

(** ** convolute_lambda *)

Section ConvoluteLambda.

Variables (window_start window_end : Z) (fpkm_exon fpkm_pre : R).
Variables (total_reads : Z) (junctions : list Z).

(** [junctions[i]].  Every use below is guarded by [i < len(junctions)]
    or follows an index that was, so the default is never read. *)
Definition junction (i : nat) : Z := nth i junctions 0.

(** The [while ji < len(junctions) and junctions[ji] <= window_end]
    loop; it returns the final [ji] and [fpkm_conv]. *)
Fixpoint between_junctions (fuel ji : nat) (fpkm_conv : R) : nat * R :=
  match fuel with
  | O => (ji, fpkm_conv)
  | S fuel' =>
      if (ji <? length junctions)%nat && (junction ji <=? window_end) then
        between_junctions fuel' (S ji)
          (if Nat.even ji
           then fpkm_conv + IZR (junction ji - junction (ji - 1)) * (fpkm_exon + fpkm_pre)
           else fpkm_conv + IZR (junction ji - junction (ji - 1)) * fpkm_pre)%R
      else (ji, fpkm_conv)
  end.

Definition convolute_lambda (ji : nat) : R :=
  let fpkm_conv :=
    if (length junctions <=? ji)%nat then
      (fpkm_exon + fpkm_pre)%R
    else if window_end <? junction ji then
      if Nat.even ji then (fpkm_exon + fpkm_pre)%R else fpkm_pre
    else
      let to_first :=
        if Nat.even ji
        then (IZR (junction ji - window_start) * (fpkm_exon + fpkm_pre))%R
        else (IZR (junction ji - window_start) * fpkm_pre)%R in
      let '(ji_past, summed) :=
        between_junctions (length junctions) (S ji) to_first in
      let ji_last := (ji_past - 1)%nat in
      let to_end :=
        if Nat.even ji_last
        then (summed + IZR (window_end - junction ji_last + 1) * fpkm_pre)%R
        else (summed + IZR (window_end - junction ji_last + 1) * (fpkm_exon + fpkm_pre))%R in
      (to_end / IZR (window_end - window_start + 1))%R in
  (fpkm_conv / 1000 * (IZR total_reads / 1000000))%R.

End ConvoluteLambda.

(** ** scan_stat_approx3 *)

(** [scipy.stats.poisson.pmf(k, mu)], by its defining formula
    [exp(-mu) * mu^k / k!] for [k >= 0], and [0] below. *)
Definition poisson_pmf (k : Z) (mu : R) : R :=
  if k <? 0 then 0%R
  else (exp (- mu) * mu ^ Z.to_nat k / INR (fact (Z.to_nat k)))%R.

(** The local [sigma] of [scan_stat_approx3]. *)
Definition scan_stat_sigma (k w T : Z) (lambd : R) : R :=
  let L := (IZR T / IZR w)%R in
  let psi := (lambd * IZR w)%R in
  ((IZR k - 1) * (L - 1) * poisson_pmf k psi)%R.

Definition scan_stat_approx3 (k w T : Z) (lambd : R) : R :=
  let sigma := scan_stat_sigma k w T lambd in
  (1 - exp (- sigma))%R.

(** ** count_windows *)

(** The loop state of [count_windows]: the two midpoint pointers, the
    junction pointer, the dict of p-values already computed and the
    list being built. *)
Record scan_state := mkScan {
  midpoints_window_start : nat;
  midpoints_window_end : nat;
  junctions_i : nat;
  precomputed_pvals : list ((Z * R) * R);
  window_stats : list (Z * R)
}.

(** [key in precomputed_pvals] and [precomputed_pvals[key]]. *)
Definition key_eqb (a b : Z * R) : bool :=
  (fst a =? fst b) && (if Req_dec_T (snd a) (snd b) then true else false).

Definition lookup_pval (key : Z * R) (d : list ((Z * R) * R)) : option R :=
  option_map snd (find (fun entry => key_eqb key (fst entry)) d).

Section CountWindows.

Variables (window_size : Z) (tx : Gene) (read_midpoints : list Q).
Variables (junctions : list Z) (total_reads txome_size : Z).

Definition midpoint (i : nat) : Q := nth i read_midpoints 0%Q.

(** The body of the [for window_start in range(...)] loop, run over
    the window starts still to come.  [Some st] is the state at the end
    of the loop or at the [break]; [None] is the TypeError of adding
    rates that were never set. *)
Fixpoint scan (starts : list Z) (st : scan_state) : option scan_state :=
  match starts with
  | [] => Some st
  | window_start :: rest =>
      let window_end := window_start + window_size - 1 in
      let n := length read_midpoints in
      let mws :=
        Py.advance n
          (fun i => (i <? n)%nat && Py.Qltb (midpoint i) (inject_Z window_start))
          (midpoints_window_start st) in
      if (n <=? mws)%nat then
        Some (mkScan mws (midpoints_window_end st) (junctions_i st)
                     (precomputed_pvals st) (window_stats st))
      else
        let mwe :=
          Py.advance n
            (fun i => (i <? n)%nat && Qle_bool (midpoint i) (inject_Z window_end))
            (midpoints_window_end st) in
        let window_count := Z.of_nat mwe - Z.of_nat mws in
        let ji :=
          Py.advance (length junctions)
            (fun i => (i <? length junctions)%nat && (junction junctions i <=? window_start))
            (junctions_i st) in
        match fpkm_exon tx, fpkm_pre tx with
        | Some rate_exon, Some rate_pre =>
            let window_lambda :=
              convolute_lambda window_start window_end rate_exon rate_pre
                               total_reads junctions ji in
            if 2 <? window_count then
              match lookup_pval (window_count, window_lambda) (precomputed_pvals st) with
              | Some p_val =>
                  scan rest (mkScan mws mwe ji (precomputed_pvals st)
                                    (window_stats st ++ [(window_count, p_val)]))
              | None =>
                  let p_val :=
                    scan_stat_approx3 window_count window_size txome_size window_lambda in
                  scan rest (mkScan mws mwe ji
                                    (((window_count, window_lambda), p_val)
                                       :: precomputed_pvals st)
                                    (window_stats st ++ [(window_count, p_val)]))
              end
            else
              scan rest (mkScan mws mwe ji (precomputed_pvals st)
                                (window_stats st ++ [(window_count, 1%R)]))
        | _, _ => None
        end
  end.

Definition count_windows : option (list (Z * R)) :=
  match span_start tx, span_end tx with
  | Some gene_start, Some gene_end =>
      option_map window_stats
        (scan (Py.range gene_start (gene_end - window_size + 1))
              (mkScan 0 0 0 [] []))
  | _, _ => None
  end.

End CountWindows.

(** ** merge_windows *)

(** The loop state of [merge_windows]. *)
Record merge_state := mkMerge {
  merged_windows : list (Z * Z);
  window_peak_start : option Z;
  insig_gap : Z
}.

(** One turn of the [for i in range(len(window_stats))] loop, at index
    [i] with p-value [p]. *)
Definition merge_step (window_size : Z) (sig_p : R) (gene_start allowed_sig_gap : Z)
    (i : Z) (p : R) (st : merge_state) : merge_state :=
  if Rlt_dec p sig_p then
    mkMerge (merged_windows st)
            (match window_peak_start st with
             | None => Some i
             | Some s => Some s
             end)
            0
  else
    match window_peak_start st with
    | Some s =>
        let gap := insig_gap st + 1 in
        if allowed_sig_gap <? gap then
          mkMerge (merged_windows st
                     ++ [(gene_start + s, gene_start + i - gap + window_size - 1)])
                  None 0
        else
          mkMerge (merged_windows st) (Some s) gap
    | None => st
    end.

Fixpoint merge_loop (window_size : Z) (sig_p : R) (gene_start allowed_sig_gap : Z)
    (i : Z) (stats : list (Z * R)) (st : merge_state) : merge_state :=
  match stats with
  | [] => st
  | (c, p) :: rest =>
      merge_loop window_size sig_p gene_start allowed_sig_gap (i + 1) rest
                 (merge_step window_size sig_p gene_start allowed_sig_gap i p st)
  end.

Definition merge_windows (stats : list (Z * R)) (window_size : Z) (sig_p : R)
    (gene_start allowed_sig_gap : Z) : list (Z * Z) :=
  let st :=
    merge_loop window_size sig_p gene_start allowed_sig_gap 0 stats
               (mkMerge [] None 0) in
  match window_peak_start st with
  | Some s =>
      merged_windows st
        ++ [(gene_start + s,
             gene_start + Z.of_nat (length stats) - 1 - insig_gap st + window_size - 1)]
  | None => merged_windows st
  end.

(** ** trim_windows_count *)

(** The two midpoints that [trim_windows_count] reads for one window,
    [read_midpoints[trim_start_i]] and [read_midpoints[trim_end_i-1]],
    with the read count.  [None] is an IndexError. *)
Definition trim_select (read_midpoints : list Q) (wstart wend : Z)
    : option (Q * Q * Z) :=
  let trim_start_i :=
    Py.bisect_left (fun m => Py.Qltb m (inject_Z wstart)) 0%Q read_midpoints in
  let trim_end_i :=
    Py.bisect_right (fun m => Py.Qltb (inject_Z wend) m) 0%Q read_midpoints in
  let read_count := Z.of_nat trim_end_i - Z.of_nat trim_start_i in
  match Py.index read_midpoints (Z.of_nat trim_start_i),
        Py.index read_midpoints (Z.of_nat trim_end_i - 1) with
  | Some first, Some last => Some (first, last, read_count)
  | _, _ => None
  end.

(** One turn of the loop of [trim_windows_count]. *)
Definition trim_window (read_midpoints : list Q) (wstart wend : Z)
    : option (Z * Z * Z) :=
  match trim_select read_midpoints wstart wend with
  | Some (first, last, read_count) =>
      Some (Py.int first, Py.int (last + (1 # 2))%Q, read_count)
  | None => None
  end.

Fixpoint trim_windows_count (windows : list (Z * Z)) (read_midpoints : list Q)
    : option (list (Z * Z * Z)) :=
  match windows with
  | [] => Some []
  | (wstart, wend) :: rest =>
      match trim_window read_midpoints wstart wend with
      | Some trimmed =>
          option_map (cons trimmed) (trim_windows_count rest read_midpoints)
      | None => None
      end
  end.

(** ** peak_stats and windows2peaks *)

Definition peak_stats (windows_counts : list (Z * Z * Z)) (junctions : list Z)
    (total_reads txome_size : Z) (fpkm_exon fpkm_pre : R) : list (Z * Z * Z * R) :=
  map (fun '(wstart, wend, wcount) =>
         let junctions_i := Py.bisect_left (fun j => j <? wstart) 0 junctions in
         let peak_lambda :=
           convolute_lambda wstart wend fpkm_exon fpkm_pre total_reads
                            junctions junctions_i in
         let p_val :=
           scan_stat_approx3 wcount (wend - wstart + 1) txome_size peak_lambda in
         (wstart, wend, wcount, p_val))
      windows_counts.

(** [windows2peaks]; [merge_windows] is called with its default
    [allowed_sig_gap = 1].  With no trimmed window the rates are never
    touched; otherwise unset rates are a TypeError. *)
Definition windows2peaks (read_midpoints : list Q) (junctions : list Z)
    (stats : list (Z * R)) (window_size : Z) (sig_p : R) (tx : Gene)
    (total_reads txome_size : Z) : option (list (Z * Z * Z * R)) :=
  match span_start tx with
  | None => None
  | Some gene_start =>
      let merged := merge_windows stats window_size sig_p gene_start 1 in
      match trim_windows_count merged read_midpoints with
      | None => None
      | Some trimmed_windows_counts =>
          match trimmed_windows_counts, fpkm_exon tx, fpkm_pre tx with
          | [], _, _ => Some []
          | _, Some rate_exon, Some rate_pre =>
              Some (peak_stats trimmed_windows_counts junctions total_reads
                               txome_size rate_exon rate_pre)
          | _, _, _ => None
          end
      end
  end.

(** * Vocabulary of the statements *)

(** Exons in ascending order of [start]. *)
Definition sorted_by_start (l : list Exon) : Prop :=
  StronglySorted (fun a b => start a <= start b) l.

(** A run of [add_exon] calls, in order. *)
Definition add_exons (g : Gene) (calls : list (Z * Z)) : Gene :=
  fold_left (fun g call => add_exon g (fst call) (snd call)) calls g.

Definition Zsum (l : list Z) : Z := fold_right Z.add 0 l.

Definition has_exons (tx : Gene) : bool :=
  match exons tx with [] => false | _ :: _ => true end.

(** The span of a transcript in 1-based inclusive coordinates: last exon
    end - first exon start + 1. *)
Definition span_length (tx : Gene) : Z :=
  match span_end tx, span_start tx with
  | Some last_end, Some first_start => last_end - first_start + 1
  | _, _ => 0
  end.

(** The test count as the specification words it: the sum over the
    transcripts of span-length - window-size + 1. *)
Definition spec_transcriptome_size (transcripts : list (String.string * Gene))
    (window_size : Z) : Z :=
  Zsum (map (fun item => span_length (snd item) - window_size + 1) transcripts).

(** Read bases of the match-class segments (operations 0, 7, 8). *)
Definition match_bases (segments : list (Z * Z)) : Z :=
  Zsum (map (fun seg => if is_match (fst seg) then snd seg else 0) segments).

(** What [read_walked] holds after a run of segments: the lengths of the
    match-class segments and of the operation-2 segments. *)
Definition walked_bases (segments : list (Z * Z)) : Z :=
  Zsum (map (fun seg =>
               if is_match (fst seg) || (fst seg =? 2) then snd seg else 0)
            segments).

(** Some prefix of the segments holds match-class read bases amounting to
    half the read length. *)
Definition match_prefix_reaches_half (r : AlignedRead) : Prop :=
  exists n : nat,
    (inject_Z (qlen r) / 2 <= inject_Z (match_bases (firstn n (cigar r))))%Q.

(** Some match-class segment is met with [read_walked + length] at half
    the read length or more. *)
Definition walk_reaches_half (r : AlignedRead) : Prop :=
  exists before operation length after,
    cigar r = before ++ (operation, length) :: after /\
    is_match operation = true /\
    (inject_Z (qlen r) / 2 <= inject_Z (walked_bases before + length))%Q.

(** Exons that each have [start <= end] and each end before the next
    one starts: [e] followed by [rest]. *)
Fixpoint exons_in_order (e : Exon) (rest : list Exon) : Prop :=
  match rest with
  | [] => start e <= end_ e
  | e' :: rest' => start e <= end_ e /\ end_ e < start e' /\ exons_in_order e' rest'
  end.

Definition transcript_in_order (tx : Gene) : Prop :=
  match exons tx with
  | [] => False
  | e :: rest => exons_in_order e rest
  end.

(** The junction list read off the exons two at a time: after every exon
    but the last, the first base of the intron and the first base of the
    next exon. *)
Fixpoint junctions_rec (e : Exon) (rest : list Exon) : list Z :=
  match rest with
  | [] => []
  | e' :: rest' => end_ e + 1 :: start e' :: junctions_rec e' rest'
  end.

(** * Properties *)

(** ** Gene.add_exon *)

Section AddExon.

Let le_start (a b : Exon) : Prop := start a <= start b.
Let well_formed (e : Exon) : Prop := start e <= end_ e.

Lemma sort_insert_In x l e : In e (sort_insert x l) <-> e = x \/ In e l.
Proof.
  induction l as [|y l IH]; simpl.
  - intuition.
  - destruct (Exon_cmp x y); simpl; rewrite ?IH; intuition.
Qed.

Lemma sort_In l e : In e (sort l) <-> In e l.
Proof.
  induction l as [|x l IH]; simpl; [tauto|].
  rewrite sort_insert_In, IH. intuition.
Qed.

Lemma Exon_cmp_Gt x y : Exon_cmp x y = Gt -> start y <= start x.
Proof.
  unfold Exon_cmp.
  destruct (start x <? start y) eqn:E1; [discriminate|].
  destruct (start x >? start y) eqn:E2; [|discriminate].
  intros _. lia.
Qed.

Lemma Exon_cmp_not_Gt x y : Exon_cmp x y <> Gt -> start x <= start y.
Proof.
  unfold Exon_cmp.
  destruct (start x <? start y) eqn:E1; [lia|].
  destruct (start x >? start y) eqn:E2; [congruence|].
  intros _. lia.
Qed.

Lemma sort_insert_sorted x l :
  sorted_by_start l -> sorted_by_start (sort_insert x l).
Proof.
  unfold sorted_by_start.
  induction l as [|y l IH]; simpl; intros Hs.
  - repeat constructor.
  - inversion Hs as [|? ? Hl Hy]; subst.
    destruct (Exon_cmp x y) eqn:E.
    + assert (Hxy : start x <= start y) by (apply Exon_cmp_not_Gt; congruence).
      constructor; [assumption|].
      constructor; [assumption|].
      rewrite Forall_forall in *. intros z Hz. specialize (Hy z Hz). lia.
    + assert (Hxy : start x <= start y) by (apply Exon_cmp_not_Gt; congruence).
      constructor; [assumption|].
      constructor; [assumption|].
      rewrite Forall_forall in *. intros z Hz. specialize (Hy z Hz). lia.
    + apply Exon_cmp_Gt in E.
      constructor; [auto|].
      rewrite Forall_forall in *. intros z Hz.
      apply sort_insert_In in Hz. destruct Hz as [->|Hz]; auto.
Qed.

Lemma sort_sorted l : sorted_by_start (sort l).
Proof.
  induction l as [|x l IH]; simpl.
  - constructor.
  - apply sort_insert_sorted, IH.
Qed.

Lemma sorted_snoc l prev x :
  sorted_by_start (l ++ [prev]) -> start prev <= start x ->
  sorted_by_start ((l ++ [prev]) ++ [x]).
Proof.
  unfold sorted_by_start.
  induction l as [|y l IH]; simpl; intros Hs Hle.
  - repeat constructor. assumption.
  - inversion Hs as [|? ? Hl Hy]; subst.
    constructor; [auto|].
    rewrite Forall_forall in *. intros z Hz.
    apply in_app_or in Hz. destruct Hz as [Hz|[<-|[]]]; [auto|].
    specialize (Hy prev). unfold le_start in *.
    assert (start y <= start prev) by (apply Hy, in_or_app; right; left; reflexivity).
    lia.
Qed.

Lemma index_before_last {A} (l : list A) (prev x : A) :
  Py.index ((l ++ [prev]) ++ [x]) (-2) = Some prev.
Proof.
  unfold Py.index. rewrite !length_app. simpl length.
  replace (0 <=? -2) with false by reflexivity. simpl andb.
  destruct ((- Z.of_nat (length l + 1 + 1) <=? -2) && (-2 <? 0)) eqn:E.
  - replace (Z.to_nat (Z.of_nat (length l + 1 + 1) + -2)) with (length l) by lia.
    rewrite <- app_assoc. rewrite nth_error_app2 by lia.
    rewrite Nat.sub_diag. reflexivity.
  - apply andb_false_iff in E. destruct E as [E|E]; [|discriminate].
    apply Z.leb_gt in E. lia.
Qed.

Lemma add_exon_invariant g s e :
  s <= e ->
  sorted_by_start (exons g) -> Forall well_formed (exons g) ->
  sorted_by_start (exons (add_exon g s e)) /\
  Forall well_formed (exons (add_exon g s e)).
Proof.
  intros Hse Hs Hw. unfold add_exon. cbn [exons].
  assert (Hw' : Forall well_formed (exons g ++ [mkExon s e])).
  { apply Forall_app. split; [assumption|]. repeat constructor. exact Hse. }
  match goal with |- context [if ?b then _ else _] => destruct b eqn:Eb end.
  - split; [apply sort_sorted|].
    rewrite Forall_forall in *. intros z Hz. apply Hw', sort_In, Hz.
  - split; [|assumption].
    destruct (exons g) as [|y l] eqn:El using rev_ind.
    + repeat constructor.
    + clear IHl. rewrite index_before_last in Eb.
      rewrite !length_app in Eb. simpl length in Eb.
      replace (1 <? Z.of_nat (length l + 1 + 1)) with true in Eb
        by (symmetry; apply Z.ltb_lt; lia).
      simpl in Eb.
      apply sorted_snoc; [assumption|]. simpl.
      assert (well_formed y).
      { rewrite Forall_forall in Hw. apply Hw, in_or_app. right. left. reflexivity. }
      unfold well_formed in *. lia.
Qed.

Lemma add_exons_invariant calls : forall g,
  Forall (fun call => fst call <= snd call) calls ->
  sorted_by_start (exons g) -> Forall well_formed (exons g) ->
  sorted_by_start (exons (add_exons g calls)).
Proof.
  induction calls as [|[s e] calls IH]; intros g Hc Hs Hw; simpl.
  - assumption.
  - inversion Hc as [|? ? Hse Hc']; subst.
    destruct (add_exon_invariant g s e Hse Hs Hw) as [Hs' Hw'].
    apply IH; assumption.
Qed.

End AddExon.

(** C8.  Starting from a fresh [Gene], after every call of a run of
    [add_exon] calls that each add an exon with [end >= start], the exon
    list is in ascending order of [start]: the conditional re-sort is
    enough. *)
Theorem add_exon_keeps_exons_sorted :
  forall (chrom strand : String.string) (kv : list (String.string * String.string))
         (calls : list (Z * Z)) (n : nat),
    Forall (fun call => fst call <= snd call) calls ->
    sorted_by_start (exons (add_exons (Gene_init chrom strand kv) (firstn n calls))).
Proof.
  intros c s k calls n Hc.
  apply add_exons_invariant.
  - rewrite <- (firstn_skipn n calls) in Hc.
    apply Forall_app in Hc. apply Hc.
  - constructor.
  - constructor.
Qed.

Lemma add_exon_keeps_exons_sorted_witness :
  Forall (fun call => fst call <= snd call) [(10, 20); (1, 5); (30, 40)] /\
  sorted_by_start
    (exons (add_exons (Gene_init "chr1"%string "+"%string []) (firstn 2 [(10, 20); (1, 5); (30, 40)]))).
Proof.
  assert (H : Forall (fun call => fst call <= snd call) [(10, 20); (1, 5); (30, 40)]).
  { repeat constructor; simpl; lia. }
  split; [exact H|].
  exact (add_exon_keeps_exons_sorted "chr1"%string "+"%string [] _ 2%nat H).
Defined.

(** ** transcriptome_size *)

Lemma span_of_exons tx :
  has_exons tx = true ->
  exists first_start last_end,
    span_start tx = Some first_start /\ span_end tx = Some last_end.
Proof.
  unfold has_exons, span_start, span_end, Py.index.
  destruct (exons tx) as [|e l] eqn:E; [discriminate|]. intros _.
  exists (start e). cbn [length].
  replace (0 <=? -1) with false by reflexivity.
  replace ((0 <=? 0) && (0 <? Z.of_nat (S (length l)))) with true
    by (symmetry; apply andb_true_iff; split; [reflexivity | apply Z.ltb_lt; lia]).
  replace ((- Z.of_nat (S (length l)) <=? -1) && (-1 <? 0)) with true
    by (symmetry; apply andb_true_iff; split; [apply Z.leb_le; lia | reflexivity]).
  cbn [andb].
  destruct (nth_error (e :: l) (Z.to_nat (Z.of_nat (S (length l)) + -1))) as [x|] eqn:Ex.
  - exists (end_ x). split; reflexivity.
  - apply nth_error_None in Ex. cbn [length] in Ex. lia.
Qed.

Lemma span_without_exons tx : has_exons tx = false -> span_end tx = None.
Proof.
  unfold has_exons, span_end. destruct (exons tx); [reflexivity | discriminate].
Qed.

Lemma transcriptome_size_fold (window_size : Z) transcripts : forall acc,
  fold_left
    (fun txome_size (item : String.string * Gene) =>
       match txome_size, span_end (snd item), span_start (snd item) with
       | Some size, Some last_end, Some first_start =>
           Some (size + (last_end - first_start - window_size + 1))
       | _, _, _ => None
       end)
    transcripts acc
  = match acc with
    | Some size =>
        if forallb (fun item => has_exons (snd item)) transcripts
        then Some (size + Zsum (map (fun item => span_length (snd item) - window_size)
                                    transcripts))
        else None
    | None => None
    end.
Proof.
  induction transcripts as [|[tid tx] ts IH]; intros [size|]; simpl.
  - f_equal. lia.
  - reflexivity.
  - rewrite IH. destruct (has_exons tx) eqn:E.
    + destruct (span_of_exons tx E) as (s & e & Hs & He).
      unfold span_length. rewrite Hs, He. simpl.
      destruct (forallb _ ts); [f_equal; lia | reflexivity].
    + rewrite (span_without_exons tx E). reflexivity.
  - apply IH.
Qed.

(** C3, as the code has it.  [transcriptome_size] adds, for every
    transcript, its span length (last exon end - first exon start + 1)
    minus the window size, which is the number of window starts that
    [count_windows] visits; a transcript with no exon is an IndexError. *)
Theorem transcriptome_size_sums_span_minus_window :
  forall (transcripts : list (String.string * Gene)) (window_size : Z),
    transcriptome_size transcripts window_size
    = if forallb (fun item => has_exons (snd item)) transcripts
      then Some (Zsum (map (fun item => span_length (snd item) - window_size)
                           transcripts))
      else None.
Proof.
  intros ts w. unfold transcriptome_size.
  rewrite transcriptome_size_fold. reflexivity.
Qed.

(** C3 as stated fails: one transcript spanning [1, 10] with window size
    5 has span length 10, so the stated sum is 10 - 5 + 1 = 6, and the
    code returns 5. *)
Lemma transcriptome_size_is_not_span_minus_window_plus_one :
  let transcripts :=
    [("tx1"%string, mkGene "chr1"%string "+"%string [] [mkExon 1 10] None None)] in
  transcriptome_size transcripts 5 = Some 5 /\
  spec_transcriptome_size transcripts 5 = 6 /\
  ~ transcriptome_size transcripts 5 = Some (spec_transcriptome_size transcripts 5).
Proof.
  cbv zeta. split; [reflexivity|]. split; [reflexivity|].
  intros H. vm_compute in H. discriminate H.
Qed.

(** ** cigar_midpoint *)

Section CigarMidpoint.

Variable read_half : Q.

(** What one segment adds to [read_walked] when the walk goes on. *)
Let walk_add (seg : Z * Z) : Z :=
  if is_match (fst seg) || (fst seg =? 2) then snd seg else 0.

Lemma walked_bases_cons seg segs :
  walked_bases (seg :: segs) = walk_add seg + walked_bases segs.
Proof. reflexivity. Qed.

Lemma is_insertion_not_2 operation :
  is_insertion operation = true -> (operation =? 2) = false.
Proof.
  unfold is_insertion. intros H. apply orb_true_iff in H.
  destruct H as [H|H]; apply Z.eqb_eq in H; subst; reflexivity.
Qed.

(** A segment either ends the walk (a match-class segment that reaches
    half the read) or passes [read_walked + walk_add] on. *)
Lemma cigar_walk_cons operation length rest read_walked genome_pos :
  (is_match operation = true /\
   Qle_bool read_half (inject_Z (read_walked + length)) = true /\
   exists m, cigar_walk read_half ((operation, length) :: rest) read_walked genome_pos
             = Some m) \/
  (is_match operation && Qle_bool read_half (inject_Z (read_walked + length)) = false /\
   exists genome_pos',
     cigar_walk read_half ((operation, length) :: rest) read_walked genome_pos
     = cigar_walk read_half rest (read_walked + walk_add (operation, length)) genome_pos').
Proof.
  unfold walk_add. cbn [cigar_walk fst snd].
  destruct (is_match operation) eqn:Em; cbn [orb andb].
  - destruct (Qle_bool read_half (inject_Z (read_walked + length))) eqn:Eq.
    + left. repeat split. eexists. reflexivity.
    + right. split; [reflexivity|]. eexists. reflexivity.
  - right. split; [reflexivity|].
    destruct (is_insertion operation) eqn:Ei.
    + rewrite (is_insertion_not_2 _ Ei). rewrite Z.add_0_r. eexists. reflexivity.
    + destruct (operation =? 2); [|rewrite Z.add_0_r]; eexists; reflexivity.
Qed.

Lemma cigar_walk_defined segments : forall read_walked genome_pos,
  (exists m, cigar_walk read_half segments read_walked genome_pos = Some m) <->
  (exists before operation length after,
      segments = before ++ (operation, length) :: after /\
      is_match operation = true /\
      (read_half <= inject_Z (read_walked + walked_bases before + length))%Q).
Proof.
  induction segments as [|[operation length] rest IH]; intros read_walked genome_pos.
  - split.
    + intros [m H]. discriminate H.
    + intros (before & o & l & after & H & _). destruct before; discriminate H.
  - destruct (cigar_walk_cons operation length rest read_walked genome_pos)
      as [(Em & Eq & Hm) | (Eq & genome_pos' & Hw)].
    + split; [intros _ | intros _; exact Hm].
      exists [], operation, length, rest. repeat split; [assumption|].
      apply Qle_bool_iff in Eq.
      replace (read_walked + walked_bases [] + length) with (read_walked + length)
        by (unfold walked_bases; simpl; lia).
      exact Eq.
    + rewrite Hw, IH. split.
      * intros (before & o & l & after & Hs & Ho & Hle).
        exists ((operation, length) :: before), o, l, after.
        repeat split; [rewrite Hs; reflexivity | assumption |].
        rewrite walked_bases_cons.
        replace (read_walked + (walk_add (operation, length) + walked_bases before) + l)
          with (read_walked + walk_add (operation, length) + walked_bases before + l)
          by lia.
        exact Hle.
      * intros (before & o & l & after & Hs & Ho & Hle).
        destruct before as [|seg before].
        -- simpl in Hs. injection Hs as E1 E2 E3. subst o l after. exfalso.
           replace (read_walked + walked_bases [] + length) with (read_walked + length)
             in Hle by (unfold walked_bases; simpl; lia).
           apply Qle_bool_iff in Hle. rewrite Ho, Hle in Eq. discriminate Eq.
        -- simpl in Hs. injection Hs as E1 E2. subst seg rest.
           exists before, o, l, after. repeat split; [assumption|].
           rewrite walked_bases_cons in Hle.
           replace (read_walked + walk_add (operation, length) + walked_bases before + l)
             with (read_walked + (walk_add (operation, length) + walked_bases before) + l)
             by lia.
           exact Hle.
Qed.

End CigarMidpoint.

(** C9, as the code has it.  [cigar_midpoint] returns a coordinate exactly
    when the walk meets a match-class segment (operation 0, 7 or 8) with
    [read_walked + length] at half the read length or more, where
    [read_walked] has gathered the lengths of the earlier match-class and
    operation-2 segments; and for a CIGAR with no match-class segment the
    result is never assigned and the evaluation fails. *)
Theorem cigar_midpoint_defined_iff_walk_reaches_half :
  forall r : AlignedRead,
    ((exists m, cigar_midpoint r = Some m) <-> walk_reaches_half r) /\
    ((forall seg, In seg (cigar r) -> is_match (fst seg) = false) ->
     cigar_midpoint r = None).
Proof.
  intros r.
  assert (Hiff : (exists m, cigar_midpoint r = Some m) <-> walk_reaches_half r).
  { unfold cigar_midpoint, walk_reaches_half.
    rewrite cigar_walk_defined.
    split; intros (before & o & l & after & Hs & Ho & Hle);
      exists before, o, l, after; repeat split; assumption. }
  split; [exact Hiff|].
  intros Hno. destruct (cigar_midpoint r) as [m|] eqn:E; [|reflexivity].
  exfalso.
  destruct (proj1 Hiff (ex_intro _ m eq_refl)) as (before & o & l & after & Hs & Ho & _).
  specialize (Hno (o, l)). rewrite Hs in Hno. cbn [fst] in Hno.
  rewrite Hno in Ho; [discriminate Ho|].
  apply in_or_app. right. left. reflexivity.
Qed.

(** C9 as stated fails: a read of 4 bases aligned as a 3-base insertion,
    a 2-base deletion and a 1-base match holds 1 match-class base in all,
    less than half its length, and [cigar_midpoint] returns 103. *)
Lemma cigar_midpoint_defined_without_match_prefix :
  let r := mkRead 4 100 [(1, 3); (2, 2); (0, 1)] in
  option_map Qred (cigar_midpoint r) = Some (103 # 1)%Q /\
  ~ match_prefix_reaches_half r.
Proof.
  cbv zeta. split; [reflexivity|].
  intros [n H].
  destruct n as [|[|[|[|n]]]]; vm_compute in H; apply H; reflexivity.
Qed.

(** ** merge_windows on the specification's example *)

(** C7.  On the window statistics [(5,0.0001), (4,0.0002), (1,0.5),
    (6,0.00005)] with threshold 0.001, window size 10, gap tolerance 1
    and gene start 1000, [merge_windows] returns the one span
    [1000, 1012]. *)
Theorem merge_windows_example :
  merge_windows [(5, 0.0001%R); (4, 0.0002%R); (1, 0.5%R); (6, 0.00005%R)]
                10 0.001%R 1000 1
  = [(1000, 1012)].
Proof.
  unfold merge_windows, merge_loop, merge_step. simpl.
  repeat (match goal with
          | |- context [Rlt_dec ?a ?b] => destruct (Rlt_dec a b); try lra
          end; simpl).
  reflexivity.
Qed.

(** ** scan_stat_approx3 *)

Section ScanStatistic.

Local Open Scope R_scope.

Lemma poisson_pmf_zero_rate k : (0 < k)%Z -> poisson_pmf k 0 = 0.
Proof.
  intros Hk. unfold poisson_pmf.
  replace (k <? 0)%Z with false by (symmetry; apply Z.ltb_ge; lia).
  rewrite pow_i by lia. unfold Rdiv. ring.
Qed.

Lemma poisson_pmf_nonneg k mu : 0 <= mu -> 0 <= poisson_pmf k mu.
Proof.
  intros Hmu. unfold poisson_pmf. destruct (k <? 0)%Z; [lra|].
  apply Rmult_le_pos.
  - apply Rmult_le_pos; [left; apply exp_pos | apply pow_le; assumption].
  - left. apply Rinv_0_lt_compat, INR_fact_lt_0.
Qed.

Lemma poisson_pmf_succ k mu :
  (0 <= k)%Z -> poisson_pmf (k + 1) mu = poisson_pmf k mu * mu / IZR (k + 1).
Proof.
  intros Hk. unfold poisson_pmf.
  replace (k + 1 <? 0)%Z with false by (symmetry; apply Z.ltb_ge; lia).
  replace (k <? 0)%Z with false by (symmetry; apply Z.ltb_ge; lia).
  replace (Z.to_nat (k + 1)) with (S (Z.to_nat k)) by lia.
  rewrite fact_simpl, mult_INR. cbn [pow].
  replace (INR (S (Z.to_nat k))) with (IZR (k + 1))
    by (rewrite INR_IZR_INZ; f_equal; lia).
  assert (IZR (k + 1) <> 0) by (apply not_0_IZR; lia).
  pose proof (INR_fact_neq_0 (Z.to_nat k)).
  field. split; assumption.
Qed.

Lemma exp_le x y : x <= y -> exp x <= exp y.
Proof.
  intros [H| ->]; [left; apply exp_increasing, H | right; reflexivity].
Qed.

Variables (w T : Z) (lambd : R).
Hypothesis w_pos : (0 < w)%Z.

Lemma sigma_step k :
  (w <= T)%Z -> 0 <= lambd -> (2 <= k)%Z ->
  IZR k * (lambd * IZR w) <= IZR k * IZR k - 1 ->
  scan_stat_sigma (k + 1) w T lambd <= scan_stat_sigma k w T lambd.
Proof.
  intros HT Hl Hk Hpsi. unfold scan_stat_sigma.
  rewrite poisson_pmf_succ by lia.
  set (psi := lambd * IZR w) in *.
  assert (Hw : 0 < IZR w) by (apply IZR_lt; assumption).
  assert (Hpsi0 : 0 <= psi) by (apply Rmult_le_pos; lra).
  pose proof (poisson_pmf_nonneg k psi Hpsi0) as Hpmf.
  assert (HL : 0 <= IZR T / IZR w - 1).
  { apply IZR_le in HT.
    assert (1 <= IZR T / IZR w); [|lra].
    apply Rmult_le_reg_r with (IZR w); [assumption|].
    unfold Rdiv. rewrite Rmult_assoc, Rinv_l by lra. lra. }
  rewrite plus_IZR.
  assert (Hk2 : 2 <= IZR k) by (apply IZR_le; assumption).
  set (K := IZR k) in *. set (P := poisson_pmf k psi) in *.
  set (L1 := IZR T / IZR w - 1) in *.
  replace ((K + 1 - 1) * L1 * (P * psi / (K + 1)))
    with (L1 * P * (K * psi / (K + 1))) by (field; lra).
  replace ((K - 1) * L1 * P) with (L1 * P * (K - 1)) by ring.
  apply Rmult_le_compat_l; [apply Rmult_le_pos; assumption|].
  apply Rmult_le_reg_r with (K + 1); [lra|].
  unfold Rdiv. rewrite Rmult_assoc, Rinv_l by lra. nra.
Qed.

Lemma sigma_condition_next k :
  0 <= lambd -> (2 <= k)%Z ->
  IZR k * (lambd * IZR w) <= IZR k * IZR k - 1 ->
  IZR (k + 1) * (lambd * IZR w) <= IZR (k + 1) * IZR (k + 1) - 1.
Proof.
  intros Hl Hk Hpsi.
  assert (Hw : 0 < IZR w) by (apply IZR_lt; assumption).
  assert (Hpsi0 : 0 <= lambd * IZR w) by (apply Rmult_le_pos; lra).
  assert (Hk2 : 2 <= IZR k) by (apply IZR_le; assumption).
  rewrite plus_IZR. nra.
Qed.

Lemma sigma_antitone (d : nat) : forall k,
  (w <= T)%Z -> 0 <= lambd -> (2 <= k)%Z ->
  IZR k * (lambd * IZR w) <= IZR k * IZR k - 1 ->
  scan_stat_sigma (k + Z.of_nat d) w T lambd <= scan_stat_sigma k w T lambd.
Proof.
  induction d as [|d IH]; intros k HT Hl Hk Hpsi.
  - rewrite Z.add_0_r. right. reflexivity.
  - replace (k + Z.of_nat (S d))%Z with (k + 1 + Z.of_nat d)%Z by lia.
    apply Rle_trans with (scan_stat_sigma (k + 1) w T lambd).
    + apply IH; [assumption | assumption | lia |].
      apply sigma_condition_next; assumption.
    + apply sigma_step; assumption.
Qed.

Lemma p_value_of_sigma k1 k2 :
  scan_stat_sigma k2 w T lambd <= scan_stat_sigma k1 w T lambd ->
  scan_stat_approx3 k2 w T lambd <= scan_stat_approx3 k1 w T lambd.
Proof.
  intros H. unfold scan_stat_approx3. cbv zeta.
  assert (exp (- scan_stat_sigma k1 w T lambd) <= exp (- scan_stat_sigma k2 w T lambd))
    by (apply exp_le; lra).
  lra.
Qed.

End ScanStatistic.

(** C1, as the formula has it.  With expected rate 0, a count [k > 0]
    and a window size [w > 0], [sigma] is 0 and the p-value is
    [1 - exp 0 = 0]: the window comes out as significant as can be, not
    as never significant.  (Rounding and floating-point exceptions are
    outside this model.) *)
Theorem scan_stat_approx3_zero_rate :
  forall k w T : Z,
    0 < k -> 0 < w ->
    scan_stat_sigma k w T 0 = 0%R /\ scan_stat_approx3 k w T 0 = 0%R.
Proof.
  intros k w T Hk Hw.
  assert (Hs : scan_stat_sigma k w T 0 = 0%R).
  { unfold scan_stat_sigma. cbv zeta. rewrite Rmult_0_l.
    rewrite poisson_pmf_zero_rate by assumption. ring. }
  split; [exact Hs|].
  unfold scan_stat_approx3. cbv zeta. rewrite Hs, Ropp_0, exp_0. ring.
Qed.

Lemma scan_stat_approx3_zero_rate_witness :
  scan_stat_sigma 3 50 1000 0 = 0%R /\ scan_stat_approx3 3 50 1000 0 = 0%R.
Proof.
  apply (scan_stat_approx3_zero_rate 3 50 1000); reflexivity.
Defined.

(** C1 as stated fails: for count 3, window size 50, 1000 tests and rate
    0 the p-value is 0, at distance 1 from the stated value 1. *)
Lemma scan_stat_approx3_zero_rate_is_not_one :
  scan_stat_approx3 3 50 1000 0 = 0%R /\
  Rabs (scan_stat_approx3 3 50 1000 0 - 1) = 1%R.
Proof.
  assert (H : scan_stat_approx3 3 50 1000 0 = 0%R).
  { unfold scan_stat_approx3, scan_stat_sigma. cbv zeta.
    rewrite Rmult_0_l, poisson_pmf_zero_rate by reflexivity.
    rewrite Rmult_0_r, Ropp_0, exp_0. ring. }
  split; [exact H|].
  rewrite H. unfold Rabs. destruct (Rcase_abs (0 - 1)); lra.
Qed.

(** C5, as the formula has it.  With at least one window's worth of
    tests ([0 < w <= T]) and a rate [lambda >= 0], the p-value does not
    increase from a count [k1] to a larger count [k2] once [k1 >= 2] and
    [k1 * (lambda * w) <= k1 * k1 - 1], that is once the count is above
    the expected count [lambda * w] by the margin [1 / k1]. *)
Theorem scan_stat_approx3_antitone_above_expected_count :
  forall (w T : Z) (lambd : R) (k1 k2 : Z),
    0 < w <= T -> (0 <= lambd)%R ->
    2 <= k1 <= k2 ->
    (IZR k1 * (lambd * IZR w) <= IZR k1 * IZR k1 - 1)%R ->
    (scan_stat_approx3 k2 w T lambd <= scan_stat_approx3 k1 w T lambd)%R.
Proof.
  intros w T lambd k1 k2 [Hw HT] Hl [Hk1 Hk2] Hpsi.
  apply p_value_of_sigma.
  replace k2 with (k1 + Z.of_nat (Z.to_nat (k2 - k1))) by lia.
  apply sigma_antitone; assumption.
Qed.

Lemma scan_stat_approx3_antitone_above_expected_count_witness :
  (scan_stat_approx3 3 1 2 1 <= scan_stat_approx3 2 1 2 1)%R.
Proof.
  apply (scan_stat_approx3_antitone_above_expected_count 1 2 1%R 2 3);
    [lia | lra | lia | lra].
Defined.

(** C5 as stated fails at the bottom of the range: with window size 1, 2
    tests and rate 1, the p-value is 0 for count 1 and positive for
    count 2. *)
Lemma scan_stat_approx3_increases_from_one_to_two :
  scan_stat_approx3 1 1 2 1 = 0%R /\
  (scan_stat_approx3 1 1 2 1 < scan_stat_approx3 2 1 2 1)%R.
Proof.
  assert (H1 : scan_stat_approx3 1 1 2 1 = 0%R).
  { unfold scan_stat_approx3, scan_stat_sigma. cbv zeta.
    replace (1 - 1)%R with 0%R by ring.
    rewrite !Rmult_0_l, Ropp_0, exp_0. ring. }
  split; [exact H1|]. rewrite H1.
  unfold scan_stat_approx3, scan_stat_sigma. cbv zeta.
  assert (Hp : (0 < poisson_pmf 2 (1 * 1))%R).
  { unfold poisson_pmf. simpl.
    apply Rmult_lt_0_compat.
    - apply Rmult_lt_0_compat; [apply exp_pos | lra].
    - apply Rinv_0_lt_compat. lra. }
  set (P := poisson_pmf 2 (1 * 1)) in *.
  assert (Hs : ((2 - 1) * (2 / 1 - 1) * P = P)%R) by field.
  rewrite Hs.
  assert (exp (- P) < exp 0)%R by (apply exp_increasing; lra).
  rewrite exp_0 in H. lra.
Qed.

(** ** bisect *)

Section Bisect.

Context {A : Type} (f : A -> bool) (a : list A) (d : A).

(** On a sorted list the test of a bisection holds on a prefix. *)
Hypothesis f_prefix_closed :
  forall i j, (i <= j < length a)%nat -> f (nth j a d) = true -> f (nth i a d) = true.

Lemma bisect_loop_spec fuel : forall lo hi,
  (lo <= hi <= length a)%nat -> (hi - lo <= fuel)%nat ->
  (forall i, (i < lo)%nat -> f (nth i a d) = true) ->
  (forall i, (hi <= i < length a)%nat -> f (nth i a d) = false) ->
  let p := Py.bisect_loop fuel f a d lo hi in
  (p <= length a)%nat /\
  (forall i, (i < p)%nat -> f (nth i a d) = true) /\
  (forall i, (p <= i < length a)%nat -> f (nth i a d) = false).
Proof.
  induction fuel as [|fuel IH]; intros lo hi Hb Hf Hlo Hhi; cbn [Py.bisect_loop].
  - assert (lo = hi) by lia. subst hi. cbv zeta. repeat split; [lia | assumption | assumption].
  - destruct (lo <? hi)%nat eqn:E.
    + apply Nat.ltb_lt in E. cbv zeta.
      assert (Hmid : (lo <= (lo + hi) / 2 < hi)%nat).
      { split.
        - apply Nat.div_le_lower_bound; lia.
        - apply Nat.Div0.div_lt_upper_bound; lia. }
      set (mid := ((lo + hi) / 2)%nat) in *.
      destruct (f (nth mid a d)) eqn:Ef.
      * apply IH; [lia | lia | | assumption].
        intros i Hi. apply f_prefix_closed with mid; [lia | assumption].
      * apply IH; [lia | lia | assumption |].
        intros i Hi. destruct (f (nth i a d)) eqn:Ei; [|reflexivity].
        rewrite (f_prefix_closed mid i) in Ef; [discriminate | lia | assumption].
    + apply Nat.ltb_ge in E. assert (lo = hi) by lia. subst hi.
      cbv zeta. repeat split; [lia | assumption | assumption].
Qed.

Lemma bisect_from_zero_spec :
  let p := Py.bisect_loop (length a) f a d 0 (length a) in
  (p <= length a)%nat /\
  (forall i, (i < p)%nat -> f (nth i a d) = true) /\
  (forall i, (p <= i < length a)%nat -> f (nth i a d) = false).
Proof.
  apply bisect_loop_spec; [lia | lia | intros i Hi; lia | intros i Hi; lia].
Qed.

End Bisect.

(** ** convolute_lambda *)

Section ConvolutionWithinExon.

Variables (a b : Z) (rate_exon rate_pre : R) (total_reads : Z) (J : list Z).
Hypothesis a_le_b : a <= b.

(** Junctions equal to the interval start add nothing, and the loop
    stops at the first junction beyond the interval end. *)
Lemma between_junctions_at_start fuel : forall j acc s,
  (j <= s <= length J)%nat -> (s - j <= fuel)%nat ->
  (forall i, (j - 1 <= i < s)%nat -> nth i J 0 = a) ->
  ((s < length J)%nat -> b < nth s J 0) ->
  between_junctions b rate_exon rate_pre J fuel j acc = (s, acc).
Proof.
  induction fuel as [|fuel IH]; intros j acc s Hj Hf Ha Hs; cbn [between_junctions].
  - f_equal. lia.
  - unfold junction.
    destruct (Nat.eq_dec j s) as [->|Hne].
    + destruct (s <? length J)%nat eqn:E; cbn [andb]; [|reflexivity].
      apply Nat.ltb_lt in E. specialize (Hs E).
      replace (nth s J 0 <=? b) with false by (symmetry; apply Z.leb_gt; lia).
      reflexivity.
    + replace (j <? length J)%nat with true by (symmetry; apply Nat.ltb_lt; lia).
      rewrite (Ha j) by lia. rewrite (Ha (j - 1)%nat) by lia.
      replace (a <=? b) with true by (symmetry; apply Z.leb_le; lia).
      cbn [andb]. rewrite Z.sub_diag.
      replace (if Nat.even j
               then (acc + 0 * (rate_exon + rate_pre))%R
               else (acc + 0 * rate_pre)%R) with acc
        by (destruct (Nat.even j); ring).
      apply IH; [lia | lia | | assumption].
      intros i Hi. apply Ha. lia.
Qed.

(** The interval lies in the exon that ends at junction [s], an even
    index; [ji] points at [s] or at earlier junctions that all sit on
    the interval start. *)
Lemma convolute_lambda_in_exon ji s :
  Nat.even s = true ->
  (ji <= s <= length J)%nat ->
  (forall i, (ji <= i < s)%nat -> nth i J 0 = a) ->
  ((s < length J)%nat -> b < nth s J 0) ->
  convolute_lambda a b rate_exon rate_pre total_reads J ji
  = ((rate_exon + rate_pre) / 1000 * (IZR total_reads / 1000000))%R.
Proof.
  intros Hev Hji Ha Hs. unfold convolute_lambda.
  destruct (length J <=? ji)%nat eqn:E1; [reflexivity|].
  apply Nat.leb_gt in E1. unfold junction.
  destruct (Nat.eq_dec ji s) as [->|Hne].
  - replace (b <? nth s J 0) with true by (symmetry; apply Z.ltb_lt; auto).
    rewrite Hev. reflexivity.
  - rewrite (Ha ji) by lia.
    replace (b <? a) with false by (symmetry; apply Z.ltb_ge; lia).
    rewrite (between_junctions_at_start (length J) (S ji) _ s);
      [| lia | lia | intros i Hi; apply Ha; lia | assumption].
    replace (Nat.even (s - 1)) with false.
    2:{ destruct s as [|s']; [lia|].
        replace (S s' - 1)%nat with s' by lia.
        rewrite Nat.even_succ in Hev. rewrite <- Nat.negb_odd, Hev. reflexivity. }
    rewrite (Ha (s - 1)%nat) by lia.
    rewrite Z.sub_diag.
    assert (Hlen : (IZR (b - a + 1) <> 0)%R) by (apply not_0_IZR; lia).
    f_equal.
    destruct (Nat.even ji); field; assumption.
Qed.

End ConvolutionWithinExon.

Section Junctions.

Let d := mkExon 0 0.

Lemma splice_middle rest : forall e1 k l,
  (forall i, nth (k + i) l d = nth i (e1 :: rest) d) ->
  flat_map (fun i => [start (nth i l d); end_ (nth i l d) + 1]) (seq k (length rest))
    ++ [start (nth (k + length rest) l d)]
  = start e1 :: junctions_rec e1 rest.
Proof.
  induction rest as [|e2 rest IH]; intros e1 k l Hl.
  - simpl. rewrite (Hl 0%nat). reflexivity.
  - cbn [length seq flat_map junctions_rec].
    replace (nth k l d) with e1
      by (rewrite <- (Nat.add_0_r k) at 1; rewrite (Hl 0%nat); reflexivity).
    replace (k + S (length rest))%nat with (S k + length rest)%nat by lia.
    rewrite <- app_assoc.
    rewrite (IH e2 (S k) l).
    + reflexivity.
    + intros i. replace (S k + i)%nat with (k + S i)%nat by lia.
      rewrite Hl. reflexivity.
Qed.

Lemma map_splice_junctions_rec tx e rest :
  exons tx = e :: rest -> map_splice_junctions tx = junctions_rec e rest.
Proof.
  intros E. unfold map_splice_junctions. rewrite E.
  destruct rest as [|e1 rest]; [reflexivity|].
  cbn [length]. replace (1 <? S (S (length rest)))%nat with true by reflexivity.
  replace (S (S (length rest)) - 2)%nat with (length rest) by lia.
  replace (S (S (length rest)) - 1)%nat with (1 + length rest)%nat by lia.
  cbn [junctions_rec nth app].
  f_equal.
  apply (splice_middle rest e1 1%nat (e :: e1 :: rest)).
  intros i. reflexivity.
Qed.

Lemma junctions_rec_length rest : forall e,
  length (junctions_rec e rest) = (2 * length rest)%nat.
Proof.
  induction rest as [|e' rest IH]; intros e; cbn [junctions_rec length]; [reflexivity|].
  rewrite IH. lia.
Qed.

Lemma junctions_rec_even rest : forall e i,
  (i < length rest)%nat ->
  nth (2 * i) (junctions_rec e rest) 0 = end_ (nth i (e :: rest) d) + 1.
Proof.
  induction rest as [|e' rest IH]; intros e i Hi; cbn [length] in Hi; [lia|].
  destruct i as [|i]; [reflexivity|].
  replace (2 * S i)%nat with (S (S (2 * i))) by lia.
  cbn [junctions_rec nth]. apply IH. lia.
Qed.

Lemma junctions_rec_odd rest : forall e i,
  (i < length rest)%nat ->
  nth (2 * i + 1) (junctions_rec e rest) 0 = start (nth (S i) (e :: rest) d).
Proof.
  induction rest as [|e' rest IH]; intros e i Hi; cbn [length] in Hi; [lia|].
  destruct i as [|i]; [reflexivity|].
  replace (2 * S i + 1)%nat with (S (S (2 * i + 1))) by lia.
  cbn [junctions_rec]. cbn [nth]. apply IH. lia.
Qed.

Lemma exons_in_order_head rest e : exons_in_order e rest -> start e <= end_ e.
Proof. destruct rest; simpl; tauto. Qed.

Lemma junctions_rec_lower rest : forall e,
  exons_in_order e rest ->
  Forall (fun x => end_ e + 1 <= x) (junctions_rec e rest).
Proof.
  induction rest as [|e' rest IH]; intros e H; cbn [junctions_rec]; [constructor|].
  destruct H as (He & Hlt & H').
  constructor; [lia|]. constructor; [lia|].
  specialize (IH e' H'). apply exons_in_order_head in H'.
  rewrite Forall_forall in *. intros x Hx. specialize (IH x Hx). lia.
Qed.

Lemma junctions_rec_sorted rest : forall e,
  exons_in_order e rest -> StronglySorted Z.le (junctions_rec e rest).
Proof.
  induction rest as [|e' rest IH]; intros e H; cbn [junctions_rec]; [constructor|].
  pose proof (junctions_rec_lower _ _ H) as Hlow. cbn [junctions_rec] in Hlow.
  destruct H as (He & Hlt & H').
  pose proof (junctions_rec_lower _ _ H') as Hlow'.
  pose proof (exons_in_order_head _ _ H') as He'.
  constructor.
  - constructor.
    + apply IH. assumption.
    + rewrite Forall_forall in *. intros x Hx. specialize (Hlow' x Hx). lia.
  - inversion Hlow; subst. assumption.
Qed.

Lemma sorted_nth_le (l : list Z) :
  StronglySorted Z.le l ->
  forall i j, (i <= j < length l)%nat -> nth i l 0 <= nth j l 0.
Proof.
  induction 1 as [|x l Hs IH Hx]; intros i j Hij; cbn [length] in Hij; [lia|].
  destruct i as [|i], j as [|j]; cbn [nth]; try lia.
  - rewrite Forall_forall in Hx. apply Hx, nth_In. lia.
  - apply IH. lia.
Qed.

End Junctions.

(** C4, as the code has it.  For a transcript whose exons are in order
    and whose pre-mRNA rate is 0, and an interval [[a, b]] inside one of
    its exons, [convolute_lambda] called with the index of the first
    junction at or after [a] returns the exonic rate per kilobase times
    the total reads in millions: a per-base expected count, whatever the
    length of the interval. *)
Theorem convolute_lambda_within_exon_is_per_base_rate :
  forall (tx : Gene) (i : nat) (ex : Exon) (a b : Z) (exonic_rate : R) (total_reads : Z),
    transcript_in_order tx ->
    nth_error (exons tx) i = Some ex ->
    start ex <= a -> a <= b -> b <= end_ ex ->
    let junctions := map_splice_junctions tx in
    let ji := Py.bisect_left (fun j => j <? a) 0 junctions in
    convolute_lambda a b exonic_rate 0 total_reads junctions ji
    = (exonic_rate / 1000 * (IZR total_reads / 1000000))%R.
Proof.
  intros tx i ex a b exonic_rate total_reads Hord Hex Ha Hab Hb junctions ji.
  unfold transcript_in_order in Hord.
  destruct (exons tx) as [|e rest] eqn:E; [contradiction|].
  assert (HJ : junctions = junctions_rec e rest)
    by (apply map_splice_junctions_rec; assumption).
  assert (Hi : (i < length (e :: rest))%nat)
    by (apply nth_error_Some; congruence).
  assert (Hnth : nth i (e :: rest) (mkExon 0 0) = ex)
    by (apply nth_error_nth; assumption).
  cbn [length] in Hi.
  pose proof (junctions_rec_length rest e) as Hlen. rewrite <- HJ in Hlen.
  pose proof (junctions_rec_sorted rest e Hord) as Hsorted. rewrite <- HJ in Hsorted.
  destruct (bisect_from_zero_spec (fun j => j <? a) junctions 0) as (Hp & Hlt & Hge).
  { intros x y Hxy Hy. apply Z.ltb_lt in Hy. apply Z.ltb_lt.
    pose proof (sorted_nth_le junctions Hsorted x y Hxy). lia. }
  fold (Py.bisect_left (fun j => j <? a) 0 junctions) in Hp, Hlt, Hge.
  fold ji in Hp, Hlt, Hge.
  assert (Hend : (2 * i < length junctions)%nat -> b < nth (2 * i) junctions 0).
  { intros H. rewrite HJ, junctions_rec_even by lia. rewrite Hnth. lia. }
  assert (Hji : (ji <= 2 * i)%nat).
  { destruct (Nat.le_gt_cases ji (2 * i)) as [H|H]; [assumption|]. exfalso.
    specialize (Hlt (2 * i)%nat H). apply Z.ltb_lt in Hlt.
    assert (b < nth (2 * i) junctions 0) by (apply Hend; lia). lia. }
  replace (exonic_rate / 1000 * (IZR total_reads / 1000000))%R
    with ((exonic_rate + 0) / 1000 * (IZR total_reads / 1000000))%R
    by (f_equal; f_equal; ring).
  apply convolute_lambda_in_exon with (s := (2 * i)%nat).
  - assumption.
  - apply Nat.even_even.
  - lia.
  - intros j Hj.
    assert (Hlow : a <= nth j junctions 0).
    { specialize (Hge j). apply Z.ltb_ge. apply Hge. lia. }
    assert (Hup : nth j junctions 0 <= nth (2 * i - 1) junctions 0)
      by (apply sorted_nth_le; [assumption | lia]).
    destruct i as [|i']; [lia|].
    replace (2 * S i' - 1)%nat with (2 * i' + 1)%nat in Hup by lia.
    rewrite HJ in Hup at 2. rewrite junctions_rec_odd in Hup by lia.
    rewrite Hnth in Hup. lia.
  - assumption.
Qed.

Lemma convolute_lambda_within_exon_is_per_base_rate_witness :
  let tx := mkGene "chr1"%string "+"%string [] [mkExon 1 100; mkExon 201 300] None None in
  convolute_lambda 210 250 2 0 1000000 (map_splice_junctions tx)
    (Py.bisect_left (fun j => j <? 210) 0 (map_splice_junctions tx))
  = (2 / 1000 * (IZR 1000000 / 1000000))%R.
Proof.
  cbv zeta.
  apply (convolute_lambda_within_exon_is_per_base_rate
           (mkGene "chr1"%string "+"%string [] [mkExon 1 100; mkExon 201 300] None None)
           1%nat (mkExon 201 300) 210 250 2%R 1000000).
  - unfold transcript_in_order. simpl. lia.
  - reflexivity.
  - simpl. lia.
  - lia.
  - simpl. lia.
Defined.
